(** * Custom output parsers of [docs/docs/how_to/output_parser_custom.ipynb]

    The notebook defines four small parsers:
    - [parse], a function from a chat message to its text with the case
      of every letter inverted;
    - [streaming_parse], the same transformation applied chunk by chunk;
    - [BooleanOutputParser.parse], which maps one of two configurable
      tokens to a boolean and raises [OutputParserException] otherwise;
    - [StrInvertCase.parse_result], which takes a list of generations.

    All of them are built from three methods of Python's [str]:
    [strip], [upper] and [swapcase].  A Python string is a sequence of
    Unicode code points, and these methods consult the Unicode character
    database; they are modelled below after CPython's
    [Objects/unicodeobject.c], with the database as a parameter. *)

From Stdlib Require Import Ascii String List Bool NArith Lia.
Import ListNotations.

Set Implicit Arguments.

(** ** Python strings *)

Definition codepoint := N.
Definition str := list codepoint.

(** A string literal of the notebook (all of them are ASCII). *)
Definition lit (s : string) : str := map N_of_ascii (list_ascii_of_string s).

(** [==] on [str]. *)
Fixpoint str_eqb (a b : str) : bool :=
  match a, b with
  | [], [] => true
  | x :: a', y :: b' => N.eqb x y && str_eqb a' b'
  | _, _ => false
  end.

(** The part of the Unicode character database that [strip], [upper]
    and [swapcase] read.  The names follow CPython's macros
    ([Py_UNICODE_ISSPACE], [_PyUnicode_ToUpperFull], ...). *)
Class UnicodeData := {
  is_space : codepoint -> bool;
  is_upper : codepoint -> bool;
  is_lower : codepoint -> bool;
  is_cased : codepoint -> bool;
  is_case_ignorable : codepoint -> bool;
  to_upper_full : codepoint -> str;
  to_lower_full : codepoint -> str
}.

Definition CAPITAL_SIGMA : codepoint := 0x3A3%N.
Definition FINAL_SIGMA : codepoint := 0x3C2%N.
Definition SMALL_SIGMA : codepoint := 0x3C3%N.

Section PyStr.
Context {U : UnicodeData}.

Fixpoint drop_while (f : codepoint -> bool) (s : str) : str :=
  match s with
  | [] => []
  | c :: tl => if f c then drop_while f tl else s
  end.

(** [str.strip()] without argument: the index [i] runs from the left
    over white space, the index [j] from the right, and the slice
    between them is returned. *)
Definition lstrip (s : str) : str := drop_while is_space s.
Definition rstrip (s : str) : str := rev (drop_while is_space (rev s)).
Definition strip (s : str) : str := rstrip (lstrip s).

(** [str.upper()]: every code point is replaced by its full upper-case
    mapping, which may be several code points long. *)
Definition upper (s : str) : str := flat_map to_upper_full s.

(** The first code point of [s] that is not case-ignorable. *)
Fixpoint skip_ignorable (s : str) : option codepoint :=
  match s with
  | [] => None
  | c :: tl => if is_case_ignorable c then skip_ignorable tl else Some c
  end.

(** [handle_capital_sigma]: a capital sigma is lower-cased to the final
    form when a cased letter precedes it and none follows it, with
    case-ignorable code points skipped on both sides.  [before] is the
    text in front of the sigma, nearest code point first. *)
Definition handle_capital_sigma (before after : str) : codepoint :=
  let final_sigma :=
    match skip_ignorable before with
    | Some c =>
        is_cased c &&
        match skip_ignorable after with
        | None => true
        | Some d => negb (is_cased d)
        end
    | None => false
    end in
  if final_sigma then FINAL_SIGMA else SMALL_SIGMA.

Definition lower_ucs4 (before : str) (c : codepoint) (after : str) : str :=
  if N.eqb c CAPITAL_SIGMA then [handle_capital_sigma before after]
  else to_lower_full c.

(** [do_swapcase], with the code points already visited kept in
    [before] (nearest first). *)
Fixpoint swapcase_from (before s : str) : str :=
  match s with
  | [] => []
  | c :: tl =>
      (if is_upper c then lower_ucs4 before c tl
       else if is_lower c then to_upper_full c
       else [c]) ++ swapcase_from (c :: before) tl
  end.

Definition swapcase (s : str) : str := swapcase_from [] s.

(** What [swapcase] does to a code point whose mapping does not depend
    on its neighbours. *)
Definition swap_char (c : codepoint) : str :=
  if is_upper c then to_lower_full c
  else if is_lower c then to_upper_full c
  else [c].
End PyStr.

(** ** A table for evaluating examples

    [unicode_fragment] agrees with the Unicode character database on
    white space (all of it), on U+0000..U+007F, and on the code points
    U+00DF, U+03A3, U+03C2 and U+03C3; every other code point is left
    without case.  It is used to run the parsers on concrete inputs made
    of these code points only. *)

Local Open Scope N_scope.

Definition in_range (lo hi c : N) : bool := N.leb lo c && N.leb c hi.

Definition fragment_is_space (c : codepoint) : bool :=
  in_range 0x09 0x0D c || in_range 0x1C 0x20 c || N.eqb c 0x85 ||
  N.eqb c 0xA0 || N.eqb c 0x1680 || in_range 0x2000 0x200A c ||
  N.eqb c 0x2028 || N.eqb c 0x2029 || N.eqb c 0x202F || N.eqb c 0x205F ||
  N.eqb c 0x3000.

Definition fragment_is_upper (c : codepoint) : bool :=
  in_range 0x41 0x5A c || N.eqb c CAPITAL_SIGMA.

Definition fragment_is_lower (c : codepoint) : bool :=
  in_range 0x61 0x7A c || N.eqb c 0xDF || N.eqb c FINAL_SIGMA ||
  N.eqb c SMALL_SIGMA.

Definition fragment_is_case_ignorable (c : codepoint) : bool :=
  N.eqb c 0x27 || N.eqb c 0x2E || N.eqb c 0x3A || N.eqb c 0x5E || N.eqb c 0x60.

Definition fragment_to_upper (c : codepoint) : str :=
  if in_range 0x61 0x7A c then [c - 32]
  else if N.eqb c 0xDF then [0x53; 0x53]
  else if N.eqb c FINAL_SIGMA || N.eqb c SMALL_SIGMA then [CAPITAL_SIGMA]
  else [c].

Definition fragment_to_lower (c : codepoint) : str :=
  if in_range 0x41 0x5A c then [c + 32]
  else if N.eqb c CAPITAL_SIGMA then [SMALL_SIGMA]
  else [c].

Definition unicode_fragment : UnicodeData := {|
  is_space := fragment_is_space;
  is_upper := fragment_is_upper;
  is_lower := fragment_is_lower;
  is_cased := fun c => fragment_is_upper c || fragment_is_lower c;
  is_case_ignorable := fragment_is_case_ignorable;
  to_upper_full := fragment_to_upper;
  to_lower_full := fragment_to_lower
|}.

(** The same table with the Kelvin sign U+212A, an upper-case letter
    whose lower-case form is the ASCII letter [k]. *)
Definition KELVIN_SIGN : codepoint := 0x212A.

Definition unicode_fragment_with_kelvin : UnicodeData := {|
  is_space := fragment_is_space;
  is_upper := fun c => fragment_is_upper c || N.eqb c KELVIN_SIGN;
  is_lower := fragment_is_lower;
  is_cased := fun c =>
    fragment_is_upper c || fragment_is_lower c || N.eqb c KELVIN_SIGN;
  is_case_ignorable := fragment_is_case_ignorable;
  to_upper_full := fragment_to_upper;
  to_lower_full := fun c =>
    if N.eqb c KELVIN_SIGN then [0x6B] else fragment_to_lower c
|}.

Local Close Scope N_scope.

(** ** Outcomes of a call *)

(** The two exceptions the notebook raises itself, and the one Python
    raises when [swapcase] is looked up on an object that is not a
    string. *)
Inductive exception : Type :=
| OutputParserException (msg : str)
| NotImplementedError (msg : str)
| AttributeError (msg : str).

Inductive outcome (A : Type) : Type :=
| Return (a : A)
| Raise (e : exception).
Arguments Return {A} a.
Arguments Raise {A} e.

Definition outcome_map {A B} (f : A -> B) (r : outcome A) : outcome B :=
  match r with
  | Return a => Return (f a)
  | Raise e => Raise e
  end.

Definition is_OutputParserException (e : exception) : bool :=
  match e with OutputParserException _ => true | _ => false end.

Definition is_NotImplementedError (e : exception) : bool :=
  match e with NotImplementedError _ => true | _ => false end.

(** The objects the two parser classes hand back: Python is dynamically
    typed, and one returns a [bool], the other a [str]. *)
Inductive pyvalue : Type :=
| PyBool (b : bool)
| PyStr (s : str).

Definition is_str (v : pyvalue) : bool :=
  match v with PyStr _ => true | PyBool _ => false end.

(** ** Messages and generations (only what the notebook reads) *)

(** A chat message whose content is text.  The library also allows the
    content of a message to be a list of content blocks; a chat
    generation carrying such a message is a constructor of its own
    below. *)
Record AIMessage := { content : str }.

(** One block of a list-valued message content: a string or a
    dictionary. *)
Inductive content_block : Type :=
| TextBlock (text : str)
| DictBlock (entries : list (str * str)).

Record AIMessageChunk := { chunk_content : str }.

(** Adding chunks up concatenates their contents. *)
Definition aggregate (chunks : list AIMessageChunk) : AIMessage :=
  {| content := concat (map chunk_content chunks) |}.

(** A plain-text [Generation], or a [ChatGeneration] carrying a message;
    matching on the constructor is the [isinstance] test.  The message of
    a chat generation has text content ([ChatGeneration]) or a list of
    content blocks ([ChatGenerationBlocks]). *)
Inductive Generation : Type :=
| PlainGeneration (text : str)
| ChatGeneration (message : AIMessage)
| ChatGenerationBlocks (blocks : list content_block).

Definition isinstance_ChatGeneration (g : Generation) : bool :=
  match g with
  | PlainGeneration _ => false
  | ChatGeneration _ | ChatGenerationBlocks _ => true
  end.


(** ** The function-based parsers *)

Definition parse {U : UnicodeData} (ai_message : AIMessage) : str :=
  swapcase (content ai_message).

(** The generator yields one string per chunk, in order; a finite
    iterable is a list. *)
Definition streaming_parse {U : UnicodeData}
    (chunks : list AIMessageChunk) : list str :=
  map (fun chunk => swapcase (chunk_content chunk)) chunks.

(** ** [class BooleanOutputParser(BaseOutputParser[bool])] *)

Module BooleanOutputParser.

Record t := { true_val : str; false_val : str }.

(** The constructor: both fields are keyword arguments with defaults. *)
Definition new (true_val false_val : option str) : t :=
  {| true_val := match true_val with Some v => v | None => lit "YES" end;
     false_val := match false_val with Some v => v | None => lit "NO" end |}.

Definition error_message (self : t) (cleaned_text : str) : str :=
  lit "BooleanOutputParser expected output value to either be " ++
  true_val self ++ lit " or " ++ false_val self ++
  lit " (case-insensitive). Received " ++ cleaned_text ++ lit ".".

Definition parse {U : UnicodeData} (self : t) (text : str) : outcome bool :=
  let cleaned_text := upper (strip text) in
  if negb (str_eqb cleaned_text (upper (true_val self)) ||
           str_eqb cleaned_text (upper (false_val self)))
  then Raise (OutputParserException (error_message self cleaned_text))
  else Return (str_eqb cleaned_text (upper (true_val self))).

(** The object [parse] returns, seen as a Python value. *)
Definition parse_value {U : UnicodeData} (self : t) (text : str)
    : outcome pyvalue :=
  outcome_map PyBool (parse self text).

Definition _type (self : t) : str := lit "boolean_output_parser".

End BooleanOutputParser.

(** ** [class StrInvertCase(BaseGenerationOutputParser[str])] *)

Module StrInvertCase.

Definition parse_result {U : UnicodeData}
    (result : list Generation) (partial : bool) : outcome str :=
  match result with
  | [generation] =>
      match generation with
      | PlainGeneration _ =>
          Raise (OutputParserException
            (lit "This output parser can only be used with a chat generation."))
      | ChatGeneration message => Return (swapcase (content message))
      | ChatGenerationBlocks _ =>
          (* [generation.message.content.swapcase()] on a list *)
          Raise (AttributeError
            (lit "'list' object has no attribute 'swapcase'"))
      end
  | _ =>
      Raise (NotImplementedError
        (lit "This output parser can only be used with a single generation."))
  end.

End StrInvertCase.

(** Modelled from the spec: the engine's batch call, which this notebook
    only uses ("supporting synchronous call, streaming call, and batch
    call"); it runs the parser on each input in order and hands back
    the list of values, or the first failure. *)
Fixpoint batch {A B} (invoke : A -> outcome B) (inputs : list A)
    : outcome (list B) :=
  match inputs with
  | [] => Return []
  | x :: rest =>
      match invoke x with
      | Raise e => Raise e
      | Return v => outcome_map (cons v) (batch invoke rest)
      end
  end.

(** ** Vocabulary of the statements *)

Section Vocabulary.
Context {U : UnicodeData}.

(** Case-insensitive equality, the way the parser compares: on the
    upper-cased strings. *)
Definition eq_ignoring_case (a b : str) : Prop := upper a = upper b.

Definition all_space (s : str) : bool := forallb is_space s.

(** Two code points are the same letter in possibly different case
    when they have the same upper-case mapping.  (White space has no
    case; the second conjunct says so for an arbitrary table.) *)
Definition same_letter (a b : codepoint) : Prop :=
  to_upper_full a = to_upper_full b /\ is_space a = is_space b.

(** [s'] is [s] with the case of some of its letters changed, code
    point by code point.  (A case change that alters the number of code
    points, such as lower-casing U+0130, is not of this form.) *)
Definition recased (s' s : str) : Prop := Forall2 same_letter s' s.

(** "Accepts exactly its two tokens, case-insensitively, and rejects
    everything else". *)
Definition accepts_exactly_tokens (p : BooleanOutputParser.t) : Prop :=
  forall text,
    (eq_ignoring_case text (BooleanOutputParser.true_val p) \/
     eq_ignoring_case text (BooleanOutputParser.false_val p) ->
     exists b, BooleanOutputParser.parse p text = Return b) /\
    (~ (eq_ignoring_case text (BooleanOutputParser.true_val p) \/
        eq_ignoring_case text (BooleanOutputParser.false_val p)) ->
     exists msg,
       BooleanOutputParser.parse p text = Raise (OutputParserException msg)).

(** "Every failure of the example parsers is an
    [OutputParserException]". *)
Definition only_output_parser_exceptions : Prop :=
  (forall p text e,
      BooleanOutputParser.parse p text = Raise e ->
      is_OutputParserException e = true) /\
  (forall result partial e,
      StrInvertCase.parse_result result partial = Raise e ->
      is_OutputParserException e = true).

(** "Both tokens are honoured whatever the true token is set to". *)
Definition honours_true_token (true_val : str) : Prop :=
  let p := BooleanOutputParser.new (Some true_val) None in
  BooleanOutputParser.parse p (BooleanOutputParser.true_val p) = Return true /\
  BooleanOutputParser.parse p (BooleanOutputParser.false_val p) = Return false.

(** "An accepted string is turned into another string". *)
Definition returns_a_string (p : BooleanOutputParser.t) : Prop :=
  forall text v,
    BooleanOutputParser.parse_value p text = Return v -> is_str v = true.

(** "Streaming and aggregating give the same text". *)
Definition streaming_agrees (chunks : list AIMessageChunk) : Prop :=
  concat (streaming_parse chunks) = parse (aggregate chunks).

(** [a] is [b] in some case: [b] itself, its lower-case form or its
    upper-case form. *)
Definition case_of (a b : codepoint) : Prop :=
  a = b \/ to_lower_full b = [a] \/ to_upper_full b = [a].

(** "Padding with white space and changing the case of letters at will
    changes neither acceptance nor the value". *)
Definition ignores_padding_and_case (p : BooleanOutputParser.t) : Prop :=
  forall (t t' pre post : str) (b : bool),
    BooleanOutputParser.parse p t = Return b ->
    Forall2 case_of t' t ->
    all_space pre = true ->
    all_space post = true ->
    BooleanOutputParser.parse p (pre ++ t' ++ post) = Return b.

(** "A single chat-style candidate always yields a value". *)
Definition chat_generation_yields_value : Prop :=
  forall (generation : Generation) (partial : bool),
    isinstance_ChatGeneration generation = true ->
    exists v, StrInvertCase.parse_result [generation] partial = Return v.
End Vocabulary.

(** ** Conditions on the table

    Two facts about the Unicode character database that some
    properties of the parsers rest on, stated for an arbitrary table. *)

Section TableConditions.
Context {U : UnicodeData}.
Local Open Scope N_scope.

(** White space has no case, and the upper-case form of any other code
    point is not empty and holds no white space. *)
Record upper_respects_space : Prop := {
  space_upper : forall c, is_space c = true -> to_upper_full c = [c];
  upper_nonempty : forall c, is_space c = false -> to_upper_full c <> [];
  upper_no_space :
    forall c d, is_space c = false -> In d (to_upper_full c) ->
                is_space d = false
}.

(** The table entry of an ASCII code point is the Unicode one: [A-Z] are
    upper-case letters, [a-z] lower-case letters 32 code points further,
    letters are not white space, and nothing else has case. *)
Definition ascii_entry_ok (c : codepoint) : bool :=
  if in_range 0x41 0x5A c then
    is_upper c && str_eqb (to_lower_full c) [c + 32] &&
    str_eqb (to_upper_full c) [c] && negb (is_space c)
  else if in_range 0x61 0x7A c then
    negb (is_upper c) && is_lower c &&
    str_eqb (to_upper_full c) [c - 32] && negb (is_space c)
  else negb (is_upper c) && negb (is_lower c).

Definition agrees_on_ascii : bool :=
  forallb ascii_entry_ok (map N.of_nat (seq 0 128)).

Definition is_ascii (s : str) : bool := forallb (fun c => N.ltb c 128) s.

(** Case inversion of one ASCII code point, written out. *)
Definition ascii_swap (c : codepoint) : codepoint :=
  if in_range 0x41 0x5A c then c + 32
  else if in_range 0x61 0x7A c then c - 32
  else c.

(** [s'] is [s] with some of its ASCII letters put in the other case,
    and nothing else changed. *)
Definition ascii_recased (s' s : str) : Prop :=
  Forall2 (fun a b => a = b \/ a = ascii_swap b) s' s.
End TableConditions.

(** ** Running the notebook's own examples *)

Section Examples.
Local Existing Instance unicode_fragment.

Example parse_meow :
  parse {| content := lit "Meow" |} = lit "mEOW".
Proof. reflexivity. Qed.

Example invoke_yes :
  BooleanOutputParser.parse (BooleanOutputParser.new None None) (lit "YES")
  = Return true.
Proof. reflexivity. Qed.

Example invoke_meow :
  exists msg,
    BooleanOutputParser.parse (BooleanOutputParser.new None None) (lit "MEOW")
    = Raise (OutputParserException msg).
Proof. eexists; reflexivity. Qed.

Example batch_okay_no :
  batch (BooleanOutputParser.parse
           (BooleanOutputParser.new (Some (lit "OKAY")) None))
        [lit "OKAY"; lit "NO"]
  = Return [true; false].
Proof. reflexivity. Qed.

Example strip_upper_example :
  upper (strip (lit "  yes ")) = lit "YES".
Proof. reflexivity. Qed.
End Examples.

(** ** Facts about the string methods *)

Lemma str_eqb_eq (a b : str) : str_eqb a b = true <-> a = b.
Proof.
  revert b; induction a as [|x a IH]; intros [|y b]; simpl;
    try (split; [discriminate | discriminate]); [tauto|].
  rewrite andb_true_iff, N.eqb_eq, IH.
  split; [intros [-> ->]; reflexivity | intros H; injection H; auto].
Qed.

Lemma str_eqb_refl (a : str) : str_eqb a a = true.
Proof. apply str_eqb_eq; reflexivity. Qed.

Lemma str_eqb_neq (a b : str) : a <> b -> str_eqb a b = false.
Proof.
  intros H; destruct (str_eqb a b) eqn:E; [|reflexivity].
  apply str_eqb_eq in E; contradiction.
Qed.

Section StripFacts.
Context {U : UnicodeData}.

Lemma drop_while_all f (s : str) :
  forallb f s = true -> drop_while f s = [].
Proof.
  induction s as [|c s IH]; simpl; [reflexivity|].
  destruct (f c); simpl; [exact IH | discriminate].
Qed.

Lemma drop_while_app f (s1 s2 : str) :
  drop_while f (s1 ++ s2) =
  if forallb f s1 then drop_while f s2 else drop_while f s1 ++ s2.
Proof.
  induction s1 as [|c s1 IH]; simpl; [reflexivity|].
  destruct (f c); simpl; [exact IH | reflexivity].
Qed.

Lemma forallb_rev f (s : str) : forallb f (rev s) = forallb f s.
Proof.
  induction s as [|c s IH]; simpl; [reflexivity|].
  rewrite forallb_app, IH; simpl.
  rewrite andb_true_r; apply andb_comm.
Qed.

(** White space around a text does not survive [strip]. *)
Lemma strip_padding (pre text post : str) :
  all_space pre = true -> all_space post = true ->
  strip (pre ++ text ++ post) = strip text.
Proof.
  unfold all_space, strip, lstrip, rstrip; intros Hpre Hpost.
  rewrite (drop_while_app _ pre), Hpre.
  rewrite (drop_while_app _ text).
  destruct (forallb is_space text) eqn:Htext.
  - rewrite (drop_while_all _ _ Hpost), (drop_while_all _ _ Htext).
    reflexivity.
  - rewrite rev_app_distr, drop_while_app, forallb_rev, Hpost.
    reflexivity.
Qed.

Lemma recased_drop_while (s' s : str) :
  recased s' s ->
  recased (drop_while is_space s') (drop_while is_space s).
Proof.
  induction 1 as [|a b s' s [Hup Hsp] Hrest IH]; simpl; [constructor|].
  rewrite Hsp; destruct (is_space b) eqn:Hb.
  - exact IH.
  - constructor; [split; congruence | exact Hrest].
Qed.

Lemma recased_rev (s' s : str) : recased s' s -> recased (rev s') (rev s).
Proof.
  induction 1 as [|a b s' s Hab Hrest IH]; simpl; [constructor|].
  apply Forall2_app; [exact IH | constructor; [exact Hab | constructor]].
Qed.

Lemma recased_strip (s' s : str) : recased s' s -> recased (strip s') (strip s).
Proof.
  intros H; unfold strip, lstrip, rstrip.
  apply recased_rev, recased_drop_while, recased_rev, recased_drop_while, H.
Qed.

Lemma recased_upper (s' s : str) : recased s' s -> upper s' = upper s.
Proof.
  induction 1 as [|a b s' s [Hup _] _ IH]; simpl; [reflexivity|].
  rewrite Hup; f_equal; exact IH.
Qed.

(** The parser looks at its input only through [upper (strip text)]. *)
Lemma parse_cleaned (p : BooleanOutputParser.t) (text1 text2 : str) :
  upper (strip text1) = upper (strip text2) ->
  BooleanOutputParser.parse p text1 = BooleanOutputParser.parse p text2.
Proof. unfold BooleanOutputParser.parse; intros ->; reflexivity. Qed.

(** Hence padding and a change of letters that keeps their upper-case
    mapping leave the outcome alone. *)
Lemma parse_recased_padded
    (p : BooleanOutputParser.t) (t t' pre post : str) :
  recased t' t ->
  all_space pre = true ->
  all_space post = true ->
  BooleanOutputParser.parse p (pre ++ t' ++ post) =
  BooleanOutputParser.parse p t.
Proof.
  intros Hcase Hpre Hpost. apply parse_cleaned.
  rewrite strip_padding by assumption.
  apply recased_upper, recased_strip, Hcase.
Qed.

(** Away from capital sigma [swapcase] works code point by code
    point. *)
Lemma swapcase_from_pointwise (before s : str) :
  ~ In CAPITAL_SIGMA s -> swapcase_from before s = flat_map swap_char s.
Proof.
  revert before; induction s as [|c s IH]; intros before Hs; simpl;
    [reflexivity|].
  rewrite IH by (intros H; apply Hs; right; exact H).
  f_equal. unfold swap_char, lower_ucs4.
  destruct (N.eqb_spec c CAPITAL_SIGMA) as [->|_]; [|reflexivity].
  exfalso; apply Hs; left; reflexivity.
Qed.

Lemma swapcase_pointwise (s : str) :
  ~ In CAPITAL_SIGMA s -> swapcase s = flat_map swap_char s.
Proof. apply swapcase_from_pointwise. Qed.
End StripFacts.

(** ** [BooleanOutputParser.parse] *)

Section BooleanParserFacts.
Context {U : UnicodeData}.
Import BooleanOutputParser.

Lemma parse_true (p : t) (text : str) :
  upper (strip text) = upper (true_val p) -> parse p text = Return true.
Proof.
  unfold parse; intros ->. rewrite str_eqb_refl; reflexivity.
Qed.

Lemma parse_false (p : t) (text : str) :
  upper (strip text) = upper (false_val p) ->
  upper (strip text) <> upper (true_val p) ->
  parse p text = Return false.
Proof.
  unfold parse; intros Hf Ht.
  rewrite (str_eqb_neq Ht), Hf, str_eqb_refl; reflexivity.
Qed.

Lemma parse_raise (p : t) (text : str) :
  upper (strip text) <> upper (true_val p) ->
  upper (strip text) <> upper (false_val p) ->
  parse p text =
  Raise (OutputParserException (error_message p (upper (strip text)))).
Proof.
  unfold parse; intros Ht Hf.
  rewrite (str_eqb_neq Ht), (str_eqb_neq Hf); reflexivity.
Qed.

(** Whatever [parse] returns or raises is decided by the three cases
    above. *)
Lemma parse_inv_return (p : t) (text : str) (b : bool) :
  parse p text = Return b ->
  b = str_eqb (upper (strip text)) (upper (true_val p)) /\
  (upper (strip text) = upper (true_val p) \/
   upper (strip text) = upper (false_val p)).
Proof.
  unfold parse.
  destruct (str_eqb (upper (strip text)) (upper (true_val p))) eqn:Et;
    destruct (str_eqb (upper (strip text)) (upper (false_val p))) eqn:Ef;
    simpl; intros H; try discriminate; injection H as <-;
    (split; [reflexivity|]).
  - left; apply str_eqb_eq, Et.
  - left; apply str_eqb_eq, Et.
  - right; apply str_eqb_eq, Ef.
Qed.

Lemma parse_inv_raise (p : t) (text : str) (e : exception) :
  parse p text = Raise e ->
  e = OutputParserException (error_message p (upper (strip text))).
Proof.
  unfold parse.
  destruct (negb _); intros H; [injection H as <-; reflexivity | discriminate].
Qed.
End BooleanParserFacts.

(** C1, as amended.  [BooleanOutputParser.parse] accepts exactly the
    inputs that, once leading and trailing white space is removed, equal
    one of the two configured tokens case-insensitively: it returns
    [True] on a match with the true token, [False] on a match with the
    false token only, and raises [OutputParserException] on anything
    else. *)
Theorem parse_accepts_stripped_tokens
    {U : UnicodeData} (p : BooleanOutputParser.t) (text : str) :
  (eq_ignoring_case (strip text) (BooleanOutputParser.true_val p) ->
   BooleanOutputParser.parse p text = Return true) /\
  (eq_ignoring_case (strip text) (BooleanOutputParser.false_val p) ->
   ~ eq_ignoring_case (strip text) (BooleanOutputParser.true_val p) ->
   BooleanOutputParser.parse p text = Return false) /\
  (~ eq_ignoring_case (strip text) (BooleanOutputParser.true_val p) ->
   ~ eq_ignoring_case (strip text) (BooleanOutputParser.false_val p) ->
   BooleanOutputParser.parse p text =
   Raise (OutputParserException
            (BooleanOutputParser.error_message p (upper (strip text))))).
Proof.
  unfold eq_ignoring_case; repeat split.
  - apply parse_true.
  - apply parse_false.
  - apply parse_raise.
Qed.

(** C1, as stated, fails: with the default tokens the input [" YES"]
    equals neither ["YES"] nor ["NO"] case-insensitively, and it is
    accepted. *)
Lemma padded_input_is_accepted :
  ~ accepts_exactly_tokens (U := unicode_fragment)
      (BooleanOutputParser.new None None).
Proof.
  intros H. destruct (H (lit " YES")) as [_ Hreject].
  destruct Hreject as [msg Hmsg].
  - intros [E | E]; vm_compute in E; discriminate E.
  - vm_compute in Hmsg; discriminate Hmsg.
Qed.

(** The other half of C1 fails too: with the true token set to [" YES"]
    and the default false token, the true token itself is rejected. *)
Lemma padded_token_is_rejected :
  exists msg,
    BooleanOutputParser.parse (U := unicode_fragment)
      (BooleanOutputParser.new (Some (lit " YES")) None) (lit " YES")
    = Raise (OutputParserException msg).
Proof. eexists; vm_compute; reflexivity. Qed.

(** C2, as amended.  Two kinds of failure reach the caller, each raised
    on purpose.  [BooleanOutputParser.parse] raises
    [OutputParserException], and nothing else, exactly when the stripped,
    upper-cased input equals neither upper-cased token.
    [StrInvertCase.parse_result] raises [NotImplementedError] exactly
    when the list does not hold exactly one generation, and
    [OutputParserException] exactly when its single generation is not a
    chat generation. *)
Theorem failure_kinds {U : UnicodeData} :
  (forall p text e,
      BooleanOutputParser.parse p text = Raise e ->
      is_OutputParserException e = true) /\
  (forall p text,
      (exists msg,
          BooleanOutputParser.parse p text = Raise (OutputParserException msg))
      <->
      upper (strip text) <> upper (BooleanOutputParser.true_val p) /\
      upper (strip text) <> upper (BooleanOutputParser.false_val p)) /\
  (forall result partial,
      (exists msg,
          StrInvertCase.parse_result result partial =
          Raise (NotImplementedError msg))
      <-> length result <> 1) /\
  (forall result partial,
      (exists msg,
          StrInvertCase.parse_result result partial =
          Raise (OutputParserException msg))
      <->
      exists generation,
        result = [generation] /\ isinstance_ChatGeneration generation = false).
Proof.
  split; [|split; [|split]].
  - intros p text e H. apply parse_inv_raise in H; subst e; reflexivity.
  - intros p text; split.
    + intros [msg H]; split; intros E.
      * rewrite (parse_true p text E) in H. discriminate H.
      * unfold BooleanOutputParser.parse in H.
        rewrite E, str_eqb_refl, orb_true_r in H. discriminate H.
    + intros [Ht Hf]. eexists. apply parse_raise; assumption.
  - intros result partial; split.
    + intros [msg H] Hlen.
      destruct result as [|g [|g' rest]]; try discriminate Hlen.
      destruct g; discriminate H.
    + intros Hlen. eexists.
      destruct result as [|g [|g' rest]]; simpl;
        [reflexivity | contradiction Hlen; reflexivity | reflexivity].
  - intros result partial; split.
    + intros [msg H].
      destruct result as [|g [|g' rest]]; try discriminate H.
      exists g; split; [reflexivity|]. destruct g; [reflexivity | | ];
        discriminate H.
    + intros (g & -> & Hg). destruct g; try discriminate Hg.
      eexists; reflexivity.
Qed.

(** C2, as stated, fails: the empty list of generations makes
    [parse_result] raise [NotImplementedError]. *)
Lemma empty_result_raises_not_implemented :
  ~ only_output_parser_exceptions (U := unicode_fragment).
Proof.
  intros [_ H]. specialize (H [] false _ eq_refl). discriminate H.
Qed.

(** C3.  A list of generations whose length is not exactly one makes
    [StrInvertCase.parse_result] raise, and no value is returned. *)
Theorem parse_result_rejects_non_singleton
    {U : UnicodeData} (result : list Generation) (partial : bool) :
  length result <> 1 ->
  StrInvertCase.parse_result result partial =
    Raise (NotImplementedError
      (lit "This output parser can only be used with a single generation.")) /\
  forall v, StrInvertCase.parse_result result partial <> Return v.
Proof.
  intros Hlen.
  assert (E : StrInvertCase.parse_result result partial =
    Raise (NotImplementedError
      (lit "This output parser can only be used with a single generation."))).
  { destruct result as [|g [|g' rest]]; simpl in *;
      [reflexivity | contradiction Hlen; reflexivity | reflexivity]. }
  split; [exact E | intros v; rewrite E; discriminate].
Qed.

Lemma parse_result_rejects_non_singleton_witness :
  length [PlainGeneration (lit "a"); ChatGeneration {| content := lit "b" |}]
    <> 1 /\
  (StrInvertCase.parse_result (U := unicode_fragment)
     [PlainGeneration (lit "a"); ChatGeneration {| content := lit "b" |}] true =
     Raise (NotImplementedError
       (lit "This output parser can only be used with a single generation.")) /\
   forall v,
     StrInvertCase.parse_result (U := unicode_fragment)
       [PlainGeneration (lit "a"); ChatGeneration {| content := lit "b" |}] true
     <> Return v).
Proof.
  split; [simpl; lia |].
  apply (parse_result_rejects_non_singleton (U := unicode_fragment)).
  simpl; lia.
Defined.

(** C5, as amended.  The tokens are configurable, and both configured
    values are honoured provided neither token carries leading or
    trailing white space and the two differ once upper-cased: the true
    token is parsed to [True] and the false token to [False]. *)
Theorem tokens_honoured {U : UnicodeData} (p : BooleanOutputParser.t) :
  strip (BooleanOutputParser.true_val p) = BooleanOutputParser.true_val p ->
  strip (BooleanOutputParser.false_val p) = BooleanOutputParser.false_val p ->
  upper (BooleanOutputParser.true_val p) <>
    upper (BooleanOutputParser.false_val p) ->
  BooleanOutputParser.parse p (BooleanOutputParser.true_val p) = Return true /\
  BooleanOutputParser.parse p (BooleanOutputParser.false_val p) = Return false.
Proof.
  intros Ht Hf Hne; split.
  - apply parse_true; rewrite Ht; reflexivity.
  - apply parse_false; rewrite Hf; [reflexivity | congruence].
Qed.

(** The notebook's own reconfiguration, [BooleanOutputParser(true_val="OKAY")]. *)
Lemma tokens_honoured_witness :
  BooleanOutputParser.parse (U := unicode_fragment)
    (BooleanOutputParser.new (Some (lit "OKAY")) None) (lit "OKAY")
    = Return true /\
  BooleanOutputParser.parse (U := unicode_fragment)
    (BooleanOutputParser.new (Some (lit "OKAY")) None) (lit "NO")
    = Return false.
Proof.
  apply (tokens_honoured (U := unicode_fragment)
           (BooleanOutputParser.new (Some (lit "OKAY")) None)).
  - vm_compute; reflexivity.
  - vm_compute; reflexivity.
  - vm_compute; discriminate.
Defined.

(** C5, as stated, fails: after [BooleanOutputParser(true_val="no")] the
    false token ["NO"] is parsed to [True]. *)
Lemma true_token_can_shadow_false_token :
  ~ honours_true_token (U := unicode_fragment) (lit "no").
Proof.
  intros [_ H]. vm_compute in H. discriminate H.
Qed.

(** C6, as amended.  When [BooleanOutputParser.parse] accepts a string,
    the value it produces is a boolean, [True] exactly when the stripped,
    upper-cased input equals the upper-cased true token. *)
Theorem parse_returns_bool
    {U : UnicodeData} (p : BooleanOutputParser.t) (text : str) (v : pyvalue) :
  BooleanOutputParser.parse_value p text = Return v ->
  v = PyBool (str_eqb (upper (strip text))
                      (upper (BooleanOutputParser.true_val p))).
Proof.
  unfold BooleanOutputParser.parse_value.
  destruct (BooleanOutputParser.parse p text) as [b|e] eqn:E; simpl;
    intros H; [|discriminate H].
  injection H as <-. apply parse_inv_return in E. destruct E as [-> _].
  reflexivity.
Qed.

Lemma parse_returns_bool_witness :
  BooleanOutputParser.parse_value (U := unicode_fragment)
    (BooleanOutputParser.new None None) (lit "no") = Return (PyBool false) /\
  PyBool false =
    PyBool (str_eqb (upper (U := unicode_fragment)
                       (strip (U := unicode_fragment) (lit "no")))
                    (upper (U := unicode_fragment)
                       (BooleanOutputParser.true_val
                          (BooleanOutputParser.new None None)))).
Proof.
  split; [vm_compute; reflexivity |].
  apply (parse_returns_bool (U := unicode_fragment)
           (BooleanOutputParser.new None None) (lit "no")).
  vm_compute; reflexivity.
Defined.

(** C6, as stated, fails: ["YES"] is accepted and the value produced is
    the boolean [True], not a string. *)
Lemma accepted_input_gives_bool_not_string :
  ~ returns_a_string (U := unicode_fragment) (BooleanOutputParser.new None None).
Proof.
  intros H. specialize (H (lit "YES") (PyBool true) eq_refl). discriminate H.
Qed.

(** C9, as amended.  For every finite sequence of chunks none of which
    contains the capital sigma U+03A3, the concatenation of what
    [streaming_parse] yields equals [parse] of the message whose content
    is the concatenation of the chunk contents. *)
Theorem streaming_agrees_without_sigma
    {U : UnicodeData} (chunks : list AIMessageChunk) :
  (forall chunk, In chunk chunks -> ~ In CAPITAL_SIGMA (chunk_content chunk)) ->
  streaming_agrees chunks.
Proof.
  unfold streaming_agrees, parse, aggregate, streaming_parse; simpl.
  intros Hsigma. rewrite swapcase_pointwise.
  - induction chunks as [|chunk chunks IH]; simpl; [reflexivity|].
    rewrite flat_map_app, swapcase_pointwise by (apply Hsigma; left; reflexivity).
    f_equal. apply IH. intros c Hc; apply Hsigma; right; exact Hc.
  - rewrite in_concat. intros [s [Hs Hin]].
    apply in_map_iff in Hs. destruct Hs as [chunk [<- Hchunk]].
    exact (Hsigma chunk Hchunk Hin).
Qed.

Lemma streaming_agrees_without_sigma_witness :
  streaming_agrees (U := unicode_fragment)
    [ {| chunk_content := lit "i" |}; {| chunk_content := lit "'m" |};
      {| chunk_content := lit " Claude" |} ].
Proof.
  apply (streaming_agrees_without_sigma (U := unicode_fragment)).
  intros chunk [<- | [<- | [<- | []]]]; vm_compute;
    intuition discriminate.
Defined.

(** C9, as stated, fails: for the chunks ["A"] and ["Σ"] streaming
    yields ["a"] and ["σ"], while the aggregated ["AΣ"] becomes ["aς"],
    with a final sigma. *)
Lemma final_sigma_breaks_streaming :
  ~ streaming_agrees (U := unicode_fragment)
      [ {| chunk_content := lit "A" |};
        {| chunk_content := [CAPITAL_SIGMA] |} ].
Proof.
  unfold streaming_agrees. vm_compute. discriminate.
Qed.

(** C10.  When the two tokens coincide once upper-cased, every accepted
    input is parsed to [True]; [False] is never returned. *)
Theorem degenerate_tokens_only_true
    {U : UnicodeData} (p : BooleanOutputParser.t) (text : str) (b : bool) :
  upper (BooleanOutputParser.true_val p) =
    upper (BooleanOutputParser.false_val p) ->
  BooleanOutputParser.parse p text = Return b ->
  b = true.
Proof.
  intros Hsame Hacc. apply parse_inv_return in Hacc.
  destruct Hacc as [-> [E | E]]; apply str_eqb_eq; congruence.
Qed.

Lemma degenerate_tokens_only_true_witness :
  upper (U := unicode_fragment) (lit "yes") =
    upper (U := unicode_fragment) (lit "YES") /\
  BooleanOutputParser.parse (U := unicode_fragment)
    (BooleanOutputParser.new (Some (lit "yes")) (Some (lit "YES")))
    (lit " Yes ") = Return true /\
  true = true.
Proof.
  split; [vm_compute; reflexivity |].
  split; [vm_compute; reflexivity |].
  apply (degenerate_tokens_only_true (U := unicode_fragment)
           (BooleanOutputParser.new (Some (lit "yes")) (Some (lit "YES")))
           (lit " Yes ")).
  - vm_compute; reflexivity.
  - vm_compute; reflexivity.
Defined.

(** ** Further facts about [strip] and [upper] *)

Section CleaningFacts.
Context {U : UnicodeData}.

Lemma drop_while_head f (s : str) c rest :
  drop_while f s = c :: rest -> f c = false.
Proof.
  induction s as [|x s IH]; simpl; [discriminate|].
  destruct (f x) eqn:E; [exact IH|].
  intros H; injection H as -> _; exact E.
Qed.

Lemma drop_while_suffix f (s : str) :
  exists dropped, s = dropped ++ drop_while f s.
Proof.
  induction s as [|x s [d IH]]; simpl; [exists []; reflexivity|].
  destruct (f x).
  - exists (x :: d); simpl; f_equal; exact IH.
  - exists []; reflexivity.
Qed.

(** What [strip] returns is empty or ends with something that is not
    white space ... *)
Lemma strip_last (s : str) :
  strip s = [] \/
  exists body c, strip s = body ++ [c] /\ is_space c = false.
Proof.
  unfold strip, rstrip.
  destruct (drop_while is_space (rev (lstrip s))) as [|c y] eqn:E;
    [left; reflexivity | right].
  exists (rev y), c; split; [reflexivity | exact (drop_while_head _ _ E)].
Qed.

(** ... and begins with something that is not white space. *)
Lemma strip_first (s : str) :
  strip s = [] \/
  exists c body, strip s = c :: body /\ is_space c = false.
Proof.
  unfold strip, rstrip.
  destruct (drop_while_suffix is_space (rev (lstrip s))) as [d Hd].
  destruct (drop_while is_space (rev (lstrip s))) as [|x y] eqn:E;
    [left; reflexivity | right].
  assert (Hl : lstrip s = rev (x :: y) ++ rev d).
  { rewrite <- rev_app_distr, <- Hd, rev_involutive; reflexivity. }
  destruct (rev (x :: y)) as [|c body] eqn:Er.
  - apply (f_equal (@length _)) in Er. rewrite length_rev in Er.
    discriminate Er.
  - exists c, body; split; [reflexivity|].
    unfold lstrip in Hl. exact (drop_while_head _ _ Hl).
Qed.

(** A string that [strip] changes begins or ends with white space. *)
Lemma strip_changes (s : str) :
  strip s <> s ->
  (exists c rest, s = c :: rest /\ is_space c = true) \/
  (exists rest c, s = rest ++ [c] /\ is_space c = true).
Proof.
  intros Hs. destruct s as [|c rest]; [contradiction Hs; reflexivity|].
  destruct (is_space c) eqn:Ec; [left; exists c, rest; auto|].
  right. destruct (rev (c :: rest)) as [|d r] eqn:Er.
  - apply (f_equal (@length _)) in Er. rewrite length_rev in Er.
    discriminate Er.
  - assert (Hrev : c :: rest = rev r ++ [d]).
    { rewrite <- (rev_involutive (c :: rest)), Er; reflexivity. }
    destruct (is_space d) eqn:Ed; [exists (rev r), d; auto|].
    contradiction Hs. unfold strip, rstrip, lstrip.
    simpl drop_while at 2. rewrite Ec, Er. simpl. rewrite Ed. simpl.
    symmetry; exact Hrev.
Qed.

Lemma strip_blank (s : str) : all_space s = true -> strip s = [].
Proof.
  intros H. unfold strip, lstrip, rstrip.
  rewrite (drop_while_all _ _ H); reflexivity.
Qed.

Lemma upper_app (a b : str) : upper (a ++ b) = upper a ++ upper b.
Proof. apply flat_map_app. Qed.

(** With a table that keeps white space apart, a cleaned text never
    equals the upper-case form of a token that [strip] would change. *)
Lemma cleaned_differs_from_padded (token text : str) :
  upper_respects_space ->
  strip token <> token ->
  upper (strip text) <> upper token.
Proof.
  intros WF Htok Heq.
  destruct (strip_changes Htok) as [(s & rest & -> & Hs) | (rest & s & -> & Hs)].
  - simpl in Heq. rewrite (space_upper WF _ Hs) in Heq.
    destruct (strip_first text) as [E | (c & body & E & Hc)];
      rewrite E in Heq; [discriminate Heq|]. simpl in Heq.
    destruct (to_upper_full c) as [|d u] eqn:Eu;
      [exact (upper_nonempty WF _ Hc Eu)|].
    injection Heq as -> _.
    assert (is_space s = false)
      by (apply (upper_no_space WF c); [exact Hc | rewrite Eu; left; reflexivity]).
    congruence.
  - rewrite upper_app in Heq. simpl in Heq.
    rewrite (space_upper WF _ Hs), app_nil_r in Heq.
    destruct (strip_last text) as [E | (body & c & E & Hc)];
      rewrite E in Heq.
    + destruct (upper rest); discriminate Heq.
    + rewrite upper_app in Heq. simpl in Heq. rewrite app_nil_r in Heq.
      destruct (exists_last (upper_nonempty WF _ Hc)) as (u & d & Eu).
      rewrite Eu, app_assoc in Heq. apply app_inj_tail in Heq.
      destruct Heq as [_ ->].
      assert (is_space s = false)
        by (apply (upper_no_space WF c);
            [exact Hc | rewrite Eu; apply in_or_app; right; left; reflexivity]).
      congruence.
Qed.
End CleaningFacts.

(** The table used for the examples keeps white space apart. *)
Lemma in_range_spec (lo hi c : N) :
  in_range lo hi c = true <-> (lo <= c /\ c <= hi)%N.
Proof. unfold in_range. rewrite andb_true_iff, !N.leb_le. tauto. Qed.

Lemma fragment_is_space_spec (c : codepoint) :
  fragment_is_space c = true ->
  (c <= 0x20 \/ c = 0x85 \/ c = 0xA0 \/ 0x1680 <= c)%N.
Proof.
  unfold fragment_is_space.
  rewrite !orb_true_iff, !in_range_spec, !N.eqb_eq. lia.
Qed.

Lemma fragment_to_upper_cases (c : codepoint) :
  fragment_to_upper c = [c] \/
  (0x41 <= c <= 0x7A /\ fragment_to_upper c = [c - 32] /\ 0x41 <= c - 32 <= 0x5A)%N \/
  fragment_to_upper c = [0x53; 0x53]%N /\ c = 0xDF%N \/
  fragment_to_upper c = [CAPITAL_SIGMA] /\ (c = FINAL_SIGMA \/ c = SMALL_SIGMA).
Proof.
  unfold fragment_to_upper.
  destruct (in_range 97 122 c) eqn:E1.
  - apply in_range_spec in E1. right; left. repeat split; lia.
  - destruct (N.eqb_spec c 0xDF); [right; right; left; auto|].
    destruct (N.eqb_spec c FINAL_SIGMA); simpl; [right; right; right; auto|].
    destruct (N.eqb_spec c SMALL_SIGMA); simpl; [right; right; right; auto|].
    left; reflexivity.
Qed.

Lemma fragment_upper_respects_space :
  upper_respects_space (U := unicode_fragment).
Proof.
  split; simpl.
  - intros c Hc. apply fragment_is_space_spec in Hc.
    destruct (fragment_to_upper_cases c)
      as [E | [(Hr & _ & _) | [(_ & ->) | (_ & [-> | ->])]]];
      [exact E | | | |];
      exfalso; unfold FINAL_SIGMA, SMALL_SIGMA in *; lia.
  - intros c _.
    destruct (fragment_to_upper_cases c)
      as [E | [(_ & E & _) | [(E & _) | (E & _)]]]; rewrite E; discriminate.
  - intros c d Hc.
    destruct (fragment_to_upper_cases c)
      as [E | [(_ & E & Hr) | [(E & _) | (E & _)]]]; rewrite E; simpl.
    + intros [<- | []]; exact Hc.
    + intros [<- | []]. apply not_true_is_false; intros Hd.
      apply fragment_is_space_spec in Hd. lia.
    + intros [<- | [<- | []]]; reflexivity.
    + intros [<- | []]; reflexivity.
Qed.

(** ** Further properties of [BooleanOutputParser.parse] *)

(** X2.  Blank input (empty, or white space only) is cleaned to the
    empty string: it is parsed to [True] when the true token upper-cases
    to the empty string, to [False] when only the false token does, and
    is rejected otherwise, the message ending in "Received ." *)
Theorem parse_blank_input
    {U : UnicodeData} (p : BooleanOutputParser.t) (text : str) :
  all_space text = true ->
  (upper (BooleanOutputParser.true_val p) = [] ->
   BooleanOutputParser.parse p text = Return true) /\
  (upper (BooleanOutputParser.true_val p) <> [] ->
   upper (BooleanOutputParser.false_val p) = [] ->
   BooleanOutputParser.parse p text = Return false) /\
  (upper (BooleanOutputParser.true_val p) <> [] ->
   upper (BooleanOutputParser.false_val p) <> [] ->
   BooleanOutputParser.parse p text =
   Raise (OutputParserException (BooleanOutputParser.error_message p []))).
Proof.
  intros Hblank.
  assert (E : upper (strip text) = []) by (rewrite strip_blank; auto).
  repeat split.
  - intros Ht. apply parse_true. congruence.
  - intros Ht Hf. apply parse_false; congruence.
  - intros Ht Hf. rewrite <- E. apply parse_raise; congruence.
Qed.

Lemma parse_blank_input_witness :
  BooleanOutputParser.parse (U := unicode_fragment)
    (BooleanOutputParser.new None None) (lit "  ") =
  Raise (OutputParserException
    (lit "BooleanOutputParser expected output value to either be YES or NO (case-insensitive). Received .")).
Proof.
  apply (parse_blank_input (U := unicode_fragment)
           (BooleanOutputParser.new None None) (lit "  "));
    vm_compute; [reflexivity | discriminate | discriminate].
Defined.

(** X3.  Exchanging the two tokens negates the answer: when the tokens
    differ once upper-cased, an input that a parser accepts with value
    [b] is accepted with value [not b] by the parser configured the other
    way round. *)
Theorem exchanged_tokens_negate
    {U : UnicodeData} (p q : BooleanOutputParser.t) (text : str) (b : bool) :
  BooleanOutputParser.true_val q = BooleanOutputParser.false_val p ->
  BooleanOutputParser.false_val q = BooleanOutputParser.true_val p ->
  upper (BooleanOutputParser.true_val p) <>
    upper (BooleanOutputParser.false_val p) ->
  BooleanOutputParser.parse p text = Return b ->
  BooleanOutputParser.parse q text = Return (negb b).
Proof.
  intros Ht Hf Hne Hacc. apply parse_inv_return in Hacc.
  destruct Hacc as [-> [E | E]].
  - rewrite E, str_eqb_refl. apply parse_false; congruence.
  - rewrite str_eqb_neq by congruence. apply parse_true; congruence.
Qed.

Lemma exchanged_tokens_negate_witness :
  BooleanOutputParser.parse (U := unicode_fragment)
    (BooleanOutputParser.new (Some (lit "NO")) (Some (lit "YES"))) (lit "yes")
  = Return (negb true).
Proof.
  apply (exchanged_tokens_negate (U := unicode_fragment)
           (BooleanOutputParser.new None None)
           (BooleanOutputParser.new (Some (lit "NO")) (Some (lit "YES")))
           (lit "yes")).
  - reflexivity.
  - reflexivity.
  - vm_compute; discriminate.
  - vm_compute; reflexivity.
Defined.

(** X4.  The configuration is itself case-insensitive: two parsers whose
    tokens agree once upper-cased accept the same inputs and give the
    same values (only the text of their error messages can differ). *)
Theorem token_case_is_irrelevant
    {U : UnicodeData} (p q : BooleanOutputParser.t) (text : str) (b : bool) :
  upper (BooleanOutputParser.true_val p) =
    upper (BooleanOutputParser.true_val q) ->
  upper (BooleanOutputParser.false_val p) =
    upper (BooleanOutputParser.false_val q) ->
  (BooleanOutputParser.parse p text = Return b <->
   BooleanOutputParser.parse q text = Return b).
Proof.
  intros Ht Hf. unfold BooleanOutputParser.parse. rewrite Ht, Hf.
  destruct (negb _); [split; discriminate | tauto].
Qed.

Lemma token_case_is_irrelevant_witness :
  BooleanOutputParser.parse (U := unicode_fragment)
    (BooleanOutputParser.new (Some (lit "yes")) (Some (lit "No"))) (lit "NO")
    = Return false <->
  BooleanOutputParser.parse (U := unicode_fragment)
    (BooleanOutputParser.new None None) (lit "NO") = Return false.
Proof.
  apply (token_case_is_irrelevant (U := unicode_fragment)
           (BooleanOutputParser.new (Some (lit "yes")) (Some (lit "No")))
           (BooleanOutputParser.new None None)).
  - vm_compute; reflexivity.
  - vm_compute; reflexivity.
Defined.

(** X5.  A token configured with leading or trailing white space is never
    matched, because the input is stripped and the token is not: with
    such a true token no input is parsed to [True], and with such a false
    token no input is parsed to [False].  (For any table in which white
    space has no case and upper-casing creates none.) *)
Theorem padded_token_never_matches
    {U : UnicodeData} (p : BooleanOutputParser.t) (text : str) (b : bool) :
  upper_respects_space ->
  strip (if b then BooleanOutputParser.true_val p
         else BooleanOutputParser.false_val p)
    <> (if b then BooleanOutputParser.true_val p
        else BooleanOutputParser.false_val p) ->
  BooleanOutputParser.parse p text <> Return b.
Proof.
  intros WF Hpad Hacc. apply parse_inv_return in Hacc.
  destruct Hacc as [Hb Hm]. destruct b.
  - symmetry in Hb. apply str_eqb_eq in Hb.
    exact (cleaned_differs_from_padded _ WF Hpad Hb).
  - destruct Hm as [E | E].
    + rewrite E, str_eqb_refl in Hb; discriminate Hb.
    + exact (cleaned_differs_from_padded _ WF Hpad E).
Qed.

Lemma padded_token_never_matches_witness :
  BooleanOutputParser.parse (U := unicode_fragment)
    (BooleanOutputParser.new (Some (lit "YES ")) None) (lit "YES ")
  <> Return true.
Proof.
  apply (padded_token_never_matches (U := unicode_fragment)
           (BooleanOutputParser.new (Some (lit "YES ")) None) (lit "YES ")
           (b := true)).
  - exact fragment_upper_respects_space.
  - vm_compute; discriminate.
Defined.

(** ** Case inversion on ASCII text *)

Ltac range_cases :=
  repeat match goal with
  | |- context [in_range ?lo ?hi ?c] =>
      let E := fresh "E" in
      destruct (in_range lo hi c) eqn:E;
      [apply in_range_spec in E
      | apply not_true_iff_false in E; rewrite in_range_spec in E]
  end.

Ltac bool_facts :=
  repeat match goal with
  | H : _ && _ = true |- _ => apply andb_true_iff in H; destruct H
  | H : negb _ = true |- _ => apply negb_true_iff in H
  | H : str_eqb _ _ = true |- _ => apply str_eqb_eq in H
  end.

Ltac use_facts :=
  repeat match goal with
  | H : ?x = _ |- context [?x] => rewrite H
  end.

Lemma ascii_swap_involutive (c : codepoint) : ascii_swap (ascii_swap c) = c.
Proof.
  unfold ascii_swap at 2. range_cases; unfold ascii_swap; range_cases; lia.
Qed.

Lemma ascii_swap_below (c : codepoint) :
  (c < 128)%N -> (ascii_swap c < 128)%N.
Proof. unfold ascii_swap. range_cases; lia. Qed.

Section AsciiFacts.
Context {U : UnicodeData}.
Hypothesis table_ok : agrees_on_ascii = true.

Lemma ascii_entry (c : codepoint) : (c < 128)%N -> ascii_entry_ok c = true.
Proof.
  intros Hc. unfold agrees_on_ascii in table_ok.
  rewrite forallb_forall in table_ok. apply table_ok.
  apply in_map_iff. exists (N.to_nat c). split; [apply N2Nat.id|].
  apply in_seq. lia.
Qed.

Lemma is_ascii_forall (s : str) :
  is_ascii s = true <-> forall c, In c s -> (c < 128)%N.
Proof.
  unfold is_ascii. rewrite forallb_forall.
  split; intros H c Hc; [apply N.ltb_lt | apply N.ltb_lt]; auto.
Qed.

Lemma swap_char_ascii (c : codepoint) :
  (c < 128)%N -> swap_char c = [ascii_swap c].
Proof.
  intros Hc. pose proof (ascii_entry Hc) as He.
  unfold ascii_entry_ok in He. unfold swap_char, ascii_swap.
  destruct (in_range 65 90 c); [|destruct (in_range 97 122 c)];
    bool_facts; use_facts; reflexivity.
Qed.

Lemma same_letter_ascii_swap (c : codepoint) :
  (c < 128)%N -> same_letter (ascii_swap c) c.
Proof.
  intros Hc. pose proof (ascii_entry Hc) as He.
  pose proof (ascii_entry (ascii_swap_below Hc)) as Hs.
  unfold ascii_entry_ok in He, Hs. unfold same_letter.
  unfold ascii_swap in *.
  destruct (in_range 65 90 c) eqn:E1.
  - apply in_range_spec in E1.
    replace (in_range 65 90 (c + 32)) with false in Hs
      by (symmetry; apply not_true_iff_false; rewrite in_range_spec; lia).
    replace (in_range 97 122 (c + 32)) with true in Hs
      by (symmetry; apply in_range_spec; lia).
    replace (c + 32 - 32)%N with c in Hs by lia.
    bool_facts; use_facts; split; reflexivity.
  - destruct (in_range 97 122 c) eqn:E2; [|split; reflexivity].
    apply in_range_spec in E2.
    replace (in_range 65 90 (c - 32)) with true in Hs
      by (symmetry; apply in_range_spec; lia).
    bool_facts; use_facts; split; reflexivity.
Qed.

Lemma ascii_has_no_sigma (s : str) :
  is_ascii s = true -> ~ In CAPITAL_SIGMA s.
Proof.
  rewrite is_ascii_forall. intros H Hin. apply H in Hin.
  unfold CAPITAL_SIGMA in Hin. lia.
Qed.

Lemma swapcase_ascii (s : str) :
  is_ascii s = true -> swapcase s = map ascii_swap s.
Proof.
  intros Hs. rewrite (swapcase_pointwise _ (ascii_has_no_sigma _ Hs)).
  rewrite is_ascii_forall in Hs.
  induction s as [|c s IH]; simpl; [reflexivity|].
  rewrite swap_char_ascii by (apply Hs; left; reflexivity).
  simpl; f_equal. apply IH. intros d Hd; apply Hs; right; exact Hd.
Qed.

Lemma map_ascii_swap_is_ascii (s : str) :
  is_ascii s = true -> is_ascii (map ascii_swap s) = true.
Proof.
  rewrite !is_ascii_forall. intros H c Hc.
  apply in_map_iff in Hc. destruct Hc as [d [<- Hd]].
  apply ascii_swap_below, H, Hd.
Qed.

Lemma recased_map_ascii_swap (s : str) :
  is_ascii s = true -> recased (map ascii_swap s) s.
Proof.
  rewrite is_ascii_forall. unfold recased.
  induction s as [|c s IH]; intros H; simpl; constructor.
  - apply same_letter_ascii_swap, H; left; reflexivity.
  - apply IH. intros d Hd; apply H; right; exact Hd.
Qed.
Lemma same_letter_ascii_swap_any (c : codepoint) :
  same_letter (ascii_swap c) c.
Proof.
  destruct (N.ltb_spec c 128) as [Hc | Hc];
    [apply same_letter_ascii_swap; exact Hc|].
  replace (ascii_swap c) with c; [split; reflexivity|].
  unfold ascii_swap. range_cases; lia.
Qed.

Lemma ascii_recased_recased (s' s : str) : ascii_recased s' s -> recased s' s.
Proof.
  unfold ascii_recased, recased.
  induction 1 as [|a b s' s Hab _ IH]; constructor; [|exact IH].
  destruct Hab as [-> | ->];
    [split; reflexivity | apply same_letter_ascii_swap_any].
Qed.
End AsciiFacts.

Lemma fragment_agrees_on_ascii : agrees_on_ascii (U := unicode_fragment) = true.
Proof. vm_compute; reflexivity. Qed.

(** Without capital sigma, the text streamed out is the pointwise image
    of the text streamed in. *)
Lemma streamed_text_pointwise {U : UnicodeData} (chunks : list AIMessageChunk) :
  (forall chunk, In chunk chunks -> ~ In CAPITAL_SIGMA (chunk_content chunk)) ->
  concat (streaming_parse chunks) =
  flat_map swap_char (concat (map chunk_content chunks)).
Proof.
  induction chunks as [|chunk chunks IH]; intros H; simpl; [reflexivity|].
  rewrite flat_map_app, swapcase_pointwise by (apply H; left; reflexivity).
  f_equal. apply IH. intros c Hc; apply H; right; exact Hc.
Qed.

(** ** White space and letter case in [BooleanOutputParser.parse] *)

(** C8, as amended.  [BooleanOutputParser.parse] ignores leading and
    trailing white space as well as the case of ASCII letters: if [t] is
    accepted with value [b], then [t] with any of its letters [A-Z],
    [a-z] put in the other case and white space put around it is
    accepted with the same value [b].  (For any table whose ASCII
    entries are the Unicode ones.) *)
Theorem parse_ignores_padding_and_ascii_case
    {U : UnicodeData} (p : BooleanOutputParser.t)
    (t t' pre post : str) (b : bool) :
  agrees_on_ascii = true ->
  BooleanOutputParser.parse p t = Return b ->
  ascii_recased t' t ->
  all_space pre = true ->
  all_space post = true ->
  BooleanOutputParser.parse p (pre ++ t' ++ post) = Return b.
Proof.
  intros Htable Hacc Hcase Hpre Hpost. rewrite <- Hacc.
  apply parse_recased_padded; try assumption.
  apply ascii_recased_recased; assumption.
Qed.

Lemma parse_ignores_padding_and_ascii_case_witness :
  BooleanOutputParser.parse (U := unicode_fragment)
    (BooleanOutputParser.new None None)
    (lit "  " ++ lit "yEs" ++ [9; 10]%N) = Return true.
Proof.
  apply (parse_ignores_padding_and_ascii_case (U := unicode_fragment)
           (BooleanOutputParser.new None None) (t := lit "YES")).
  - vm_compute; reflexivity.
  - vm_compute; reflexivity.
  - unfold ascii_recased; simpl.
    repeat (apply Forall2_cons;
            [first [left; reflexivity | right; reflexivity]|]).
    apply Forall2_nil.
  - vm_compute; reflexivity.
  - vm_compute; reflexivity.
Defined.

(** C8, as stated, fails: letter case is ignored only as far as
    upper-casing undoes it.  With the Kelvin sign U+212A as true token
    the token is accepted, but its lower-case form [k] is rejected, since
    [k] upper-cases to the letter [K]. *)
Lemma lower_case_kelvin_is_rejected :
  ~ ignores_padding_and_case (U := unicode_fragment_with_kelvin)
      (BooleanOutputParser.new (Some [KELVIN_SIGN]) None).
Proof.
  intros H.
  specialize (H [KELVIN_SIGN] [0x6B%N] [] [] true).
  assert (Hk : BooleanOutputParser.parse (U := unicode_fragment_with_kelvin)
                 (BooleanOutputParser.new (Some [KELVIN_SIGN]) None)
                 ([] ++ [0x6B%N] ++ []) = Return true).
  { apply H.
    - vm_compute; reflexivity.
    - constructor; [right; left; reflexivity | constructor].
    - reflexivity.
    - reflexivity. }
  vm_compute in Hk. discriminate Hk.
Qed.

(** X1.  The whole outcome of [BooleanOutputParser.parse], a rejection
    and its message included, is unchanged when white space is put
    around the input and ASCII letters of the input are put in the other
    case: the message of the exception shows the cleaned text, not the
    raw input.  (For any table whose ASCII entries are the Unicode
    ones.) *)
Theorem parse_outcome_ignores_padding_and_ascii_case
    {U : UnicodeData} (p : BooleanOutputParser.t) (t t' pre post : str) :
  agrees_on_ascii = true ->
  ascii_recased t' t ->
  all_space pre = true ->
  all_space post = true ->
  BooleanOutputParser.parse p (pre ++ t' ++ post) =
  BooleanOutputParser.parse p t.
Proof.
  intros Htable Hcase Hpre Hpost.
  apply parse_recased_padded; try assumption.
  apply ascii_recased_recased; assumption.
Qed.

Lemma parse_outcome_ignores_padding_and_ascii_case_witness :
  BooleanOutputParser.parse (U := unicode_fragment)
    (BooleanOutputParser.new None None) ([10]%N ++ lit "meow" ++ lit " ") =
  BooleanOutputParser.parse (U := unicode_fragment)
    (BooleanOutputParser.new None None) (lit "MEOW").
Proof.
  apply (parse_outcome_ignores_padding_and_ascii_case (U := unicode_fragment)).
  - vm_compute; reflexivity.
  - unfold ascii_recased; simpl.
    repeat (apply Forall2_cons;
            [first [left; reflexivity | right; reflexivity]|]).
    apply Forall2_nil.
  - vm_compute; reflexivity.
  - vm_compute; reflexivity.
Defined.

(** ** [StrInvertCase.parse_result] on a single candidate *)

(** C4, as amended.  On a singleton list [StrInvertCase.parse_result]
    looks at the shape of the candidate.  A chat generation whose message
    content is text yields that text with the case inverted, which is
    what [parse] makes of the message: on ASCII text the letters [A-Z]
    and [a-z] change places and everything else stays, and on any text
    without capital sigma every upper-case code point is replaced by its
    lower-case form and every lower-case one by its upper-case form.  A
    plain-text generation raises [OutputParserException].  (For any
    table whose ASCII entries are the Unicode ones.) *)
Theorem parse_result_inverts_chat_text {U : UnicodeData} (partial : bool) :
  agrees_on_ascii = true ->
  (forall message,
      StrInvertCase.parse_result [ChatGeneration message] partial =
        Return (parse message) /\
      (is_ascii (content message) = true ->
       parse message = map ascii_swap (content message)) /\
      (~ In CAPITAL_SIGMA (content message) ->
       parse message = flat_map swap_char (content message))) /\
  (forall text,
      StrInvertCase.parse_result [PlainGeneration text] partial =
      Raise (OutputParserException
        (lit "This output parser can only be used with a chat generation."))).
Proof.
  intros Htable. split; [|reflexivity].
  intros message. split; [reflexivity|]. split.
  - intros Hascii. apply swapcase_ascii; assumption.
  - intros Hsigma. apply swapcase_pointwise; assumption.
Qed.

Lemma parse_result_inverts_chat_text_witness :
  StrInvertCase.parse_result (U := unicode_fragment)
    [ChatGeneration {| content := lit "Hello! My name is Claude." |}] false =
  Return (map ascii_swap (lit "Hello! My name is Claude.")) /\
  map ascii_swap (lit "Hello! My name is Claude.") =
    lit "hELLO! mY NAME IS cLAUDE.".
Proof.
  split; [|vm_compute; reflexivity].
  destruct (parse_result_inverts_chat_text (U := unicode_fragment) false
              fragment_agrees_on_ascii) as [Hchat _].
  destruct (Hchat {| content := lit "Hello! My name is Claude." |})
    as (Hvalue & Hascii & _).
  rewrite Hvalue, Hascii; [reflexivity | vm_compute; reflexivity].
Defined.

(** C4, as stated, fails: a chat generation whose message content is a
    list of content blocks yields no value; looking up [swapcase] on the
    list raises [AttributeError]. *)
Lemma block_content_yields_no_value :
  ~ chat_generation_yields_value (U := unicode_fragment).
Proof.
  intros H.
  destruct (H (ChatGenerationBlocks [TextBlock (lit "Hello")]) false eq_refl)
    as [v Hv].
  discriminate Hv.
Qed.

(** ** Further properties of the case-inverting parsers *)

(** X6.  On ASCII text [parse] changes the letters and nothing else:
    [A-Z] become [a-z], [a-z] become [A-Z], every other character stays,
    so the output has the length of the input.  (For any table whose
    ASCII entries are the Unicode ones.) *)
Theorem parse_inverts_ascii_case {U : UnicodeData} (ai_message : AIMessage) :
  agrees_on_ascii = true ->
  is_ascii (content ai_message) = true ->
  parse ai_message = map ascii_swap (content ai_message).
Proof. intros Htable Hascii. apply swapcase_ascii; assumption. Qed.

Lemma parse_inverts_ascii_case_witness :
  parse (U := unicode_fragment) {| content := lit "Hello, World 42!" |} =
  map ascii_swap (lit "Hello, World 42!").
Proof.
  apply (parse_inverts_ascii_case (U := unicode_fragment)
           {| content := lit "Hello, World 42!" |});
    vm_compute; reflexivity.
Defined.

(** X7.  On ASCII text, parsing the output of [parse] once more gives
    the original text back. *)
Theorem parse_twice_restores_ascii {U : UnicodeData} (ai_message : AIMessage) :
  agrees_on_ascii = true ->
  is_ascii (content ai_message) = true ->
  parse {| content := parse ai_message |} = content ai_message.
Proof.
  intros Htable Hascii. unfold parse; simpl.
  rewrite (swapcase_ascii Htable _ Hascii).
  rewrite (swapcase_ascii Htable _ (map_ascii_swap_is_ascii _ Hascii)).
  rewrite map_map. rewrite <- (map_id (content ai_message)) at 2.
  apply map_ext. intros c; apply ascii_swap_involutive.
Qed.

Lemma parse_twice_restores_ascii_witness :
  parse (U := unicode_fragment)
    {| content := parse (U := unicode_fragment) {| content := lit "Meow" |} |}
  = lit "Meow".
Proof.
  apply (parse_twice_restores_ascii (U := unicode_fragment)
           {| content := lit "Meow" |});
    vm_compute; reflexivity.
Defined.

(** X8.  The two parsers compose: [BooleanOutputParser.parse] gives the
    same outcome on an ASCII text and on what [parse] makes of it, since
    inverting the case is undone by the upper-casing and moves no white
    space. *)
Theorem boolean_parse_after_inversion
    {U : UnicodeData} (p : BooleanOutputParser.t) (ai_message : AIMessage) :
  agrees_on_ascii = true ->
  is_ascii (content ai_message) = true ->
  BooleanOutputParser.parse p (parse ai_message) =
  BooleanOutputParser.parse p (content ai_message).
Proof.
  intros Htable Hascii. apply parse_cleaned. unfold parse.
  rewrite (swapcase_ascii Htable _ Hascii).
  apply recased_upper, recased_strip, recased_map_ascii_swap; assumption.
Qed.

Lemma boolean_parse_after_inversion_witness :
  BooleanOutputParser.parse (U := unicode_fragment)
    (BooleanOutputParser.new None None)
    (parse (U := unicode_fragment) {| content := lit " Yes " |}) =
  BooleanOutputParser.parse (U := unicode_fragment)
    (BooleanOutputParser.new None None) (lit " Yes ").
Proof.
  apply (boolean_parse_after_inversion (U := unicode_fragment)
           (BooleanOutputParser.new None None) {| content := lit " Yes " |});
    vm_compute; reflexivity.
Defined.

(** X9.  Text without any cased code point (digits, punctuation, white
    space, the empty text) comes out of [parse] unchanged. *)
Theorem parse_keeps_caseless_text {U : UnicodeData} (ai_message : AIMessage) :
  (forall c, In c (content ai_message) ->
             is_upper c = false /\ is_lower c = false) ->
  parse ai_message = content ai_message.
Proof.
  unfold parse, swapcase. generalize (@nil codepoint) as before.
  induction (content ai_message) as [|c s IH]; intros before H; simpl;
    [reflexivity|].
  destruct (H c (or_introl eq_refl)) as [-> ->]. simpl; f_equal.
  apply IH. intros d Hd; apply H; right; exact Hd.
Qed.

Lemma parse_keeps_caseless_text_witness :
  parse (U := unicode_fragment) {| content := lit "12:30 (?)" |} =
  lit "12:30 (?)".
Proof.
  apply (parse_keeps_caseless_text (U := unicode_fragment)
           {| content := lit "12:30 (?)" |}).
  intros c Hc; vm_compute in Hc.
  repeat (destruct Hc as [<- | Hc]; [split; vm_compute; reflexivity|]).
  destruct Hc.
Defined.

(** X10.  [StrInvertCase.parse_result] returns a value only for a list
    of exactly one chat generation, and the value is then what the
    function [parse] returns for the message of that generation. *)
Theorem parse_result_value_only_for_chat
    {U : UnicodeData} (result : list Generation) (partial : bool) (v : str) :
  StrInvertCase.parse_result result partial = Return v ->
  exists message, result = [ChatGeneration message] /\ v = parse message.
Proof.
  destruct result as [|[text|message|blocks] [|g rest]]; simpl; intros H;
    try discriminate H.
  injection H as <-. exists message; split; reflexivity.
Qed.

Lemma parse_result_value_only_for_chat_witness :
  exists message,
    [ChatGeneration {| content := lit "Hello" |}] = [ChatGeneration message] /\
    lit "hELLO" = parse (U := unicode_fragment) message.
Proof.
  apply (parse_result_value_only_for_chat (U := unicode_fragment)
           [ChatGeneration {| content := lit "Hello" |}] false).
  vm_compute; reflexivity.
Defined.

(** X11.  Without capital sigma, the text that [streaming_parse] puts out
    does not depend on where the input was cut into chunks: two chunk
    sequences with the same total content yield the same total output. *)
Theorem streaming_independent_of_chunking
    {U : UnicodeData} (chunks1 chunks2 : list AIMessageChunk) :
  (forall chunk, In chunk chunks1 -> ~ In CAPITAL_SIGMA (chunk_content chunk)) ->
  (forall chunk, In chunk chunks2 -> ~ In CAPITAL_SIGMA (chunk_content chunk)) ->
  concat (map chunk_content chunks1) = concat (map chunk_content chunks2) ->
  concat (streaming_parse chunks1) = concat (streaming_parse chunks2).
Proof.
  intros H1 H2 Hsame.
  rewrite (streamed_text_pointwise _ H1), (streamed_text_pointwise _ H2), Hsame.
  reflexivity.
Qed.

Lemma streaming_independent_of_chunking_witness :
  concat (streaming_parse (U := unicode_fragment)
            [ {| chunk_content := lit "aN" |}; {| chunk_content := lit "THROP" |};
              {| chunk_content := lit "IC" |} ]) =
  concat (streaming_parse (U := unicode_fragment)
            [ {| chunk_content := lit "aNTH" |}; {| chunk_content := [] |};
              {| chunk_content := lit "ROPIC" |} ]).
Proof.
  apply (streaming_independent_of_chunking (U := unicode_fragment)).
  - intros chunk [<- | [<- | [<- | []]]]; vm_compute; intuition discriminate.
  - intros chunk [<- | [<- | [<- | []]]]; vm_compute; intuition discriminate.
  - vm_compute; reflexivity.
Defined.
